(** * types/mempool.go: transaction keys and the mempool error taxonomy

    A shallow embedding of [types/mempool.go] (package [types]) and of the
    parts of the Go runtime and standard library it calls: run-time panics,
    indexing of arrays and slices, [range] loops, [fmt.Sprintf] with the
    [%d] verb, [errors.New], [errors.Unwrap] and [errors.As].

    Conventions.
    - A Go call either returns or panics: it is an [outcome].
    - [byte] is [Byte.byte]; a [[]byte] is a [list byte] (a nil slice and an
      empty slice have the same length and the same [range], they are both
      the empty list); the array type [[sha256.Size]byte] is a vector of
      exactly 32 bytes.
    - A pointer that is only tested against nil and read is an [option].
    - [int] and [int64] fields are integers [Z]; the theorems about them
      hold for every integer, so for every machine value. *)

From Stdlib Require Import ZArith.
From Stdlib.Strings Require Import Ascii Byte.
From stdpp Require Import base tactics option relations list vector strings pretty.

(** ** The Go runtime *)

Module Go.

(** Run-time panics raised by the operations used in this file. *)
Inductive panic : Type :=
| IndexOutOfRange (index len : nat)   (* index out of range [index] with length len *)
| NilDereference.                     (* invalid memory address or nil pointer dereference *)

Inductive outcome (A : Type) : Type :=
| Returns (a : A)
| Panics (p : panic).
Global Arguments Returns {A} a.
Global Arguments Panics {A} p.

Global Instance outcome_ret : MRet outcome := λ A a, Returns a.
Global Instance outcome_bind : MBind outcome := λ A B k m,
  match m with
  | Returns a => k a
  | Panics p => Panics p
  end.

Global Instance outcome_fmap : FMap outcome := λ A B f m,
  match m with
  | Returns a => Returns (f a)
  | Panics p => Panics p
  end.

(** [s[i]] on a slice, with its bounds check. *)
Definition slice_index {A} (s : list A) (i : nat) : outcome A :=
  match s !! i with
  | Some x => Returns x
  | None => Panics (IndexOutOfRange i (length s))
  end.

(** [s[i] = x] on a slice, with its bounds check. *)
Definition slice_store {A} (s : list A) (i : nat) (x : A) : outcome (list A) :=
  if decide (i < length s) then Returns (<[i:=x]> s)
  else Panics (IndexOutOfRange i (length s)).

(** [a[i]] on an array of length [n]. *)
Definition array_index {A n} (a : vec A n) (i : nat) : outcome A :=
  match decide (i < n) with
  | left H => Returns (a !!! nat_to_fin H)
  | right _ => Panics (IndexOutOfRange i n)
  end.

(** [a[i] = x] on an array of length [n]: the index is checked against the
    array's length, whatever the loop that produced it ranges over. *)
Definition array_store {A n} (a : vec A n) (i : nat) (x : A) : outcome (vec A n) :=
  match decide (i < n) with
  | left H => Returns (vinsert (nat_to_fin H) x a)
  | right _ => Panics (IndexOutOfRange i n)
  end.

(** [for i := range x { body }] over something of length [n]: the body runs
    for i = 0, 1, ..., n-1 on the loop's state, and a panic ends the loop.
    [for_range_from body i n] runs the [n] iterations that start at [i]. *)
Fixpoint for_range_from {St} (body : nat → St → outcome St)
    (i n : nat) (s : St) : outcome St :=
  match n with
  | 0 => Returns s
  | S n' => s' ← body i s; for_range_from body (S i) n' s'
  end.

Definition for_range {St} (n : nat) (body : nat → St → outcome St) (s : St)
  : outcome St :=
  for_range_from body 0 n s.

(** The statement [dst[i] = src[i]] between two slices. *)
Definition copy_step {A} (src : list A) (i : nat) (dst : list A)
  : outcome (list A) :=
  b ← slice_index src i; slice_store dst i b.

(** [make([]byte, n)]: n zero bytes. *)
Definition make_bytes (n : nat) : list byte := replicate n x00.

End Go.
Import Go.

(** ** Package [fmt]: [Sprintf] with the [%d] verb *)

Module fmt.

(** [%d] of an integer: base 10, a leading [-] for a negative one. *)
Definition verb_d (z : Z) : string := pretty z.

(** [Sprintf format args] where every verb of [format] is [%d] and every
    argument an integer: the format is copied, each [%d] replaced by the
    next argument. (An argument that is missing prints as Go prints it;
    the formats of this file have as many verbs as arguments.) *)
Fixpoint Sprintf (format : string) (args : list Z) : string :=
  match format with
  | EmptyString => EmptyString
  | String "%"%char (String "d"%char rest) =>
      match args with
      | a :: args' => verb_d a +:+ Sprintf rest args'
      | [] => "%!d(MISSING)" +:+ Sprintf rest []
      end
  | String c rest => String c (Sprintf rest args)
  end.

End fmt.

(** [strings.Contains s substr]: [substr] occurs somewhere within [s]. *)
Module strings.

Fixpoint HasPrefix (s prefix : string) {struct prefix} : bool :=
  match prefix, s with
  | EmptyString, _ => true
  | String c p, String d s' => bool_decide (c = d) && HasPrefix s' p
  | String _ _, EmptyString => false
  end.

Fixpoint Contains (s substr : string) : bool :=
  HasPrefix s substr ||
  match s with
  | EmptyString => false
  | String _ s' => Contains s' substr
  end.

End strings.

(** ** Error values

    Go's [error] is an interface: a value of it is nil or a value of some
    concrete type with an [Error() string] method. The concrete types that
    occur here are the two of the standard library that build and wrap
    errors, and the seven struct types that [types/mempool.go] declares,
    held by value as their [Error] methods take them. [ErrPreCheck] holds an
    [error] of its own, which may be nil. Wrapping is the single-cause link
    of an [Unwrap() error] method. *)

#[warnings="-register-all"]
Inductive err : Type :=
| errorString (s : string)               (* *errors.errorString: errors.New(s) *)
| wrapError (msg : string) (cause : err) (* *fmt.wrapError: fmt.Errorf("...%w...", cause) *)
| ErrWrongHeight (desiredHeight currentAuctionHeight : Z)
| ErrBundleFull (bundleId bundleHeight : Z)
| ErrTxMalformedForBundle (bundleId bundleSize bundleHeight bundleOrder : Z)
| ErrTxTooLarge (Max Actual : Z)
| ErrMempoolIsFull (NumTxs MaxTxs TxsBytes MaxTxsBytes : Z)
| ErrMempoolPendingIsFull (NumTxs MaxTxs TxsBytes MaxTxsBytes : Z)
| ErrPreCheck (Reason : option err).

(** The interface type [error]: [None] is the nil error. *)
Definition error : Type := option err.

(** The dynamic type of an error value. *)
Inductive errtype : Type :=
| T_errorString | T_wrapError
| T_ErrWrongHeight | T_ErrBundleFull | T_ErrTxMalformedForBundle
| T_ErrTxTooLarge | T_ErrMempoolIsFull | T_ErrMempoolPendingIsFull
| T_ErrPreCheck.

Global Instance errtype_eq_dec : EqDecision errtype.
Proof. solve_decision. Defined.

Definition TypeOf (e : err) : errtype :=
  match e with
  | errorString _ => T_errorString
  | wrapError _ _ => T_wrapError
  | ErrWrongHeight _ _ => T_ErrWrongHeight
  | ErrBundleFull _ _ => T_ErrBundleFull
  | ErrTxMalformedForBundle _ _ _ _ => T_ErrTxMalformedForBundle
  | ErrTxTooLarge _ _ => T_ErrTxTooLarge
  | ErrMempoolIsFull _ _ _ _ => T_ErrMempoolIsFull
  | ErrMempoolPendingIsFull _ _ _ _ => T_ErrMempoolPendingIsFull
  | ErrPreCheck _ => T_ErrPreCheck
  end.

(** ** Package [errors] *)

Module errors.

(** [errors.New(text)]: a non-nil error whose message is [text]. *)
Definition New (text : string) : error := Some (errorString text).

(** [errors.Unwrap(err)]: the result of the [Unwrap() error] method when
    the type has one, nil otherwise. Of the types above only
    [*fmt.wrapError] has the method; [ErrPreCheck] declares none. *)
Definition Unwrap (e : err) : error :=
  match e with
  | wrapError _ cause => Some cause
  | _ => None
  end.

(** The loop of [errors.As(err, target)] for a target of type [*T], from
    a non-nil [err]: true as soon as the dynamic type of the error at hand
    is [T], else go on with what it unwraps to, false at the end of the
    chain. (No type above has an [As(any) bool] method, so that test of
    the loop is always false.) *)
Fixpoint As_from (e : err) (T : errtype) : bool :=
  if decide (TypeOf e = T) then true
  else match e with
       | wrapError _ cause => As_from cause T
       | _ => false
       end.

(** [errors.As(err, target)] with [target] a non-nil [*T]: the boolean
    result (the value stored through [target] is not modelled, no caller
    in this file reads it). A nil [err] gives false. *)
Definition As (err : error) (T : errtype) : bool :=
  match err with
  | None => false
  | Some e => As_from e T
  end.

End errors.

(** ** Package [tmproto]: the wire message *)

Module tmproto.

(** [type TxKey struct { TxKey []byte }]; the field is [f_TxKey] here. *)
Record TxKey : Type := mkTxKey { f_TxKey : list byte }.

End tmproto.

(** ** Package [types] *)

(** [var ErrTxInCache = errors.New("tx already exists in cache")] *)
Definition ErrTxInCache : error := errors.New "tx already exists in cache".

(** [sha256.Size] *)
Definition Size : nat := 32.

(** [type TxKey [sha256.Size]byte] *)
Definition TxKey : Type := vec byte Size.

(** The zero value [TxKey{}], also what [var txBzs [sha256.Size]byte] holds. *)
Definition zeroTxKey : TxKey := vreplicate Size x00.

(** [func (txKey *TxKey) ToProto() *tmproto.TxKey]. The receiver is a
    pointer: [len(txKey)] and [range txKey] need only the array type, the
    read [txKey[i]] dereferences it. The result is never nil. *)
Definition ToProto (txKey : option TxKey) : outcome tmproto.TxKey :=
  let tp := tmproto.mkTxKey [] in
  let txBzs := make_bytes Size in
  if decide (0 < Size) then
    txBzs ← for_range Size (λ i txBzs,
               b ← match txKey with
                   | None => Panics NilDereference
                   | Some a => array_index a i
                   end;
               slice_store txBzs i b) txBzs;
    mret (tmproto.mkTxKey txBzs)
  else mret tp.

(** [func TxKeyFromProto(dp *tmproto.TxKey) (TxKey, error)] *)
Definition TxKeyFromProto (dp : option tmproto.TxKey) : outcome (TxKey * error) :=
  match dp with
  | None => mret (zeroTxKey, errors.New "nil data")
  | Some dp =>
      txBzs ← for_range (length (tmproto.f_TxKey dp)) (λ i txBzs,
                 b ← slice_index (tmproto.f_TxKey dp) i;
                 array_store txBzs i b) zeroTxKey;
      mret (txBzs, None)
  end.

(** [func TxKeysListFromProto(dps []*tmproto.TxKey) ([]TxKey, error)]:
    the loop over [dps] with the slice [txKeys] built so far. *)
Fixpoint TxKeysListFromProto_loop (dps : list (option tmproto.TxKey))
    (txKeys : list TxKey) : outcome (list TxKey * error) :=
  match dps with
  | [] => mret (txKeys, None)
  | dp :: dps' =>
      r ← TxKeyFromProto dp;
      let '(txKey, err) := r in
      match err with
      | Some e => mret ([], Some e)
      | None => TxKeysListFromProto_loop dps' (txKeys ++ [txKey])
      end
  end.

Definition TxKeysListFromProto (dps : list (option tmproto.TxKey))
  : outcome (list TxKey * error) :=
  TxKeysListFromProto_loop dps [].

(** The call [e.Error()] on an interface value [e], given how the method
    of each dynamic type is found: on a nil interface it panics. *)
Definition interface_Error (dispatch : err → outcome string) (e : error)
  : outcome string :=
  match e with
  | None => Panics NilDereference
  | Some v => dispatch v
  end.

(** The [Error() string] methods, by dynamic type. *)
Fixpoint Error (e : err) : outcome string :=
  match e with
  | errorString s => mret s
  | wrapError msg _ => mret msg
  | ErrWrongHeight desiredHeight currentAuctionHeight =>
      mret (fmt.Sprintf
        "Tx submitted for wrong height, asked for %d, but current auction height is %d"
        [desiredHeight; currentAuctionHeight])
  | ErrBundleFull bundleId bundleHeight =>
      mret (fmt.Sprintf
        "Tx submitted but bundle is full, for bundleId %d with bundle size %d"
        [bundleId; bundleHeight])
  | ErrTxMalformedForBundle bundleId bundleSize bundleHeight bundleOrder =>
      mret (fmt.Sprintf
        "Tx submitted but malformed with respect to bundling, for bundleId %d, at height %d, with bundleSize %d, and bundleOrder %d"
        [bundleId; bundleHeight; bundleSize; bundleOrder])
  | ErrTxTooLarge Max Actual =>
      mret (fmt.Sprintf "Tx too large. Max size is %d, but got %d" [Max; Actual])
  | ErrMempoolIsFull NumTxs MaxTxs TxsBytes MaxTxsBytes =>
      mret (fmt.Sprintf
        "mempool is full: number of txs %d (max: %d), total txs bytes %d (max: %d)"
        [NumTxs; MaxTxs; TxsBytes; MaxTxsBytes])
  | ErrMempoolPendingIsFull NumTxs MaxTxs TxsBytes MaxTxsBytes =>
      mret (fmt.Sprintf
        "mempool pending set is full: number of txs %d (max: %d), total txs bytes %d (max: %d)"
        [NumTxs; MaxTxs; TxsBytes; MaxTxsBytes])
  | ErrPreCheck Reason => interface_Error Error Reason
  end.

(** [func IsPreCheckError(err error) bool]: the target [&ErrPreCheck{}] is
    a non-nil pointer to an [ErrPreCheck]. *)
Definition IsPreCheckError (err : error) : bool :=
  errors.As err T_ErrPreCheck.

(** ** Vocabulary of the properties *)

(** [toWire] then [fromWire] on a key: [TxKeyFromProto(k.ToProto())]. *)
Definition roundtrip (k : TxKey) : outcome (TxKey * error) :=
  tp ← ToProto (Some k); TxKeyFromProto (Some tp).

(** A wire message that is present and whose field fits the key's 32 bytes. *)
Definition wire_fits (dp : option tmproto.TxKey) : Prop :=
  match dp with
  | Some m => length (tmproto.f_TxKey m) ≤ Size
  | None => False
  end.

(** [TxKeyFromProto dp] returns the key [k] and a nil error. *)
Definition converts (dp : option tmproto.TxKey) (k : TxKey) : Prop :=
  TxKeyFromProto dp = Returns (k, None).

(** The has-cause link between errors: [e] unwraps to [e']. An error wraps
    another when a chain of one or more such links leads from the first to
    the second. *)
Definition unwraps_to (e e' : err) : Prop := errors.Unwrap e = Some e'.

Definition wraps : relation err := tc unwraps_to.

(** The error values of the taxonomy other than [ErrPreCheck]: the sentinel
    [ErrTxInCache] (like every error made by [errors.New]) and the six
    structs with fields. *)
Definition other_variant (e : err) : bool :=
  match e with
  | errorString _
  | ErrWrongHeight _ _ | ErrBundleFull _ _ | ErrTxMalformedForBundle _ _ _ _
  | ErrTxTooLarge _ _ | ErrMempoolIsFull _ _ _ _
  | ErrMempoolPendingIsFull _ _ _ _ => true
  | wrapError _ _ | ErrPreCheck _ => false
  end.

(** ** Further vocabulary *)

(** A byte field filled up with zero bytes to the key's length. *)
Definition zero_padded (bs : list byte) : list byte :=
  bs ++ replicate (Size - length bs) x00.

(** [k, _ := TxKeyFromProto(dp); k.ToProto()]: a wire message turned into a
    key and the key back into a wire message. *)
Definition rewire (dp : option tmproto.TxKey) : outcome tmproto.TxKey :=
  r ← TxKeyFromProto dp; ToProto (Some r.1).

(** The keys of a list in wire form, [ToProto] on each in order, as the
    list of pointers that [TxKeysListFromProto] takes. *)
Fixpoint keys_to_wire (keys : list TxKey) : outcome (list (option tmproto.TxKey)) :=
  match keys with
  | [] => mret []
  | k :: keys' =>
      tp ← ToProto (Some k);
      tps ← keys_to_wire keys';
      mret (Some tp :: tps)
  end.

(** An [ErrPreCheck] whose chain of [Reason]s ends in a nil [Reason]. *)
Fixpoint nil_Reason (e : err) : bool :=
  match e with
  | ErrPreCheck None => true
  | ErrPreCheck (Some r) => nil_Reason r
  | _ => false
  end.

(** Layers of context around an error, the first message outermost:
    what repeated [fmt.Errorf("...: %w", err)] builds. *)
Definition wrap_layers (msgs : list string) (e : err) : err :=
  foldr wrapError e msgs.

(** The six struct types with integer fields. *)
Definition struct_variant (e : err) : bool :=
  match e with
  | ErrWrongHeight _ _ | ErrBundleFull _ _ | ErrTxMalformedForBundle _ _ _ _
  | ErrTxTooLarge _ _ | ErrMempoolIsFull _ _ _ _
  | ErrMempoolPendingIsFull _ _ _ _ => true
  | errorString _ | wrapError _ _ | ErrPreCheck _ => false
  end.

(** The characters of a decimal rendering: the digits and the minus sign. *)
Definition numeric_char (c : ascii) : bool :=
  bool_decide (c ∈ ["0"; "1"; "2"; "3"; "4"; "5"; "6"; "7"; "8"; "9"; "-"]%char).

Fixpoint numeric (s : string) : bool :=
  match s with
  | EmptyString => true
  | String c s' => numeric_char c && numeric s'
  end.

(** Induction on error values that goes through the [Reason] of an
    [ErrPreCheck]. *)
Section err_nested_ind.
Variable P : err → Prop.
Hypothesis H_errorString : ∀ s, P (errorString s).
Hypothesis H_wrapError : ∀ msg cause, P cause → P (wrapError msg cause).
Hypothesis H_struct : ∀ e, struct_variant e = true → P e.
Hypothesis H_nil : P (ErrPreCheck None).
Hypothesis H_Reason : ∀ r, P r → P (ErrPreCheck (Some r)).

Fixpoint err_nested_ind (e : err) : P e :=
  match e with
  | errorString s => H_errorString s
  | wrapError msg cause => H_wrapError msg cause (err_nested_ind cause)
  | ErrPreCheck None => H_nil
  | ErrPreCheck (Some r) => H_Reason r (err_nested_ind r)
  | ErrWrongHeight a b => H_struct (ErrWrongHeight a b) eq_refl
  | ErrBundleFull a b => H_struct (ErrBundleFull a b) eq_refl
  | ErrTxMalformedForBundle a b c d =>
      H_struct (ErrTxMalformedForBundle a b c d) eq_refl
  | ErrTxTooLarge a b => H_struct (ErrTxTooLarge a b) eq_refl
  | ErrMempoolIsFull a b c d => H_struct (ErrMempoolIsFull a b c d) eq_refl
  | ErrMempoolPendingIsFull a b c d =>
      H_struct (ErrMempoolPendingIsFull a b c d) eq_refl
  end.
End err_nested_ind.

(** * Properties *)

(** ** Arrays are slices of a fixed length *)

Section arrays.
Context {A : Type} {n : nat}.
Implicit Types (a : vec A n) (x : A) (i : nat).

Lemma array_index_slice a i :
  array_index a i = slice_index (vec_to_list a) i.
Proof.
  unfold array_index, slice_index.
  destruct (decide (i < n)) as [H|H].
  - pose proof (vlookup_lookup a (nat_to_fin H) (a !!! nat_to_fin H)) as [E _].
    rewrite fin_to_nat_to_fin in E. by rewrite E.
  - rewrite lookup_ge_None_2, length_vec_to_list; [done|].
    rewrite length_vec_to_list. lia.
Qed.

Lemma array_store_slice a i x :
  vec_to_list <$> array_store a i x = slice_store (vec_to_list a) i x.
Proof.
  unfold array_store, slice_store. rewrite length_vec_to_list.
  destruct (decide (i < n)) as [H|H]; [|done].
  cbn. by rewrite vec_to_list_insert, fin_to_nat_to_fin.
Qed.

Lemma fmap_Returns_inv (m : outcome (vec A n)) (l : list A) :
  vec_to_list <$> m = Returns l → ∃ a, m = Returns a ∧ vec_to_list a = l.
Proof. destruct m as [a|p]; cbn; [|done]. intros [= <-]. eauto. Qed.

Lemma fmap_Panics_inv {B C} (f : B → C) (m : outcome B) p :
  f <$> m = Panics p → m = Panics p.
Proof. destruct m; cbn; congruence. Qed.
End arrays.

(** ** The loop [for i := range src { dst[i] = src[i] }] *)

Section copy_loop.
Context {A : Type}.
Implicit Types (src dst : list A) (i n : nat).

Lemma copy_step_in src dst i b :
  src !! i = Some b → i < length dst →
  copy_step src i dst = Returns (<[i:=b]> dst).
Proof.
  intros Hb Hi. unfold copy_step, slice_index, slice_store. rewrite Hb. cbn.
  by rewrite decide_True.
Qed.

Lemma copy_step_past src dst i b :
  src !! i = Some b → length dst ≤ i →
  copy_step src i dst = Panics (IndexOutOfRange i (length dst)).
Proof.
  intros Hb Hi. unfold copy_step, slice_index, slice_store. rewrite Hb. cbn.
  rewrite decide_False; [done | lia].
Qed.

(** While the index stays inside both slices, the iterations i, ..., i+n-1
    overwrite exactly that window of [dst] with the window of [src]. *)
Lemma copy_loop_ok src : ∀ n i dst,
  i + n ≤ length src → i + n ≤ length dst →
  for_range_from (copy_step src) i n dst
  = Returns (take i dst ++ take n (drop i src) ++ drop (i + n) dst).
Proof.
  induction n as [|n IH]; intros i dst Hs Hd.
  - cbn [for_range_from]. rewrite take_0, Nat.add_0_r. cbn [app].
    by rewrite take_drop.
  - cbn [for_range_from]. destruct (lookup_lt_is_Some_2 src i) as [b Hb]; [lia|].
    rewrite (copy_step_in _ _ _ b) by (done || lia). cbn.
    rewrite IH by (rewrite ?length_insert; lia).
    f_equal.
    rewrite (take_S_r _ _ b) by (apply list_lookup_insert_eq; lia).
    rewrite take_insert_ge by done.
    rewrite drop_insert_lt by lia.
    rewrite (drop_S src b i) by done.
    rewrite <- (assoc_L (++)). cbn. by rewrite Nat.add_succ_r.
Qed.

(** When [src] is longer than [dst], the loop stops at the first index
    past the end of [dst], with the run-time panic of the store. *)
Lemma copy_loop_overrun src : ∀ n i dst,
  i ≤ length dst → i + n ≤ length src → length dst < i + n →
  for_range_from (copy_step src) i n dst
  = Panics (IndexOutOfRange (length dst) (length dst)).
Proof.
  induction n as [|n IH]; intros i dst Hi Hs Hd; [lia|]. cbn.
  destruct (lookup_lt_is_Some_2 src i) as [b Hb]; [lia|].
  destruct (decide (i < length dst)) as [Hlt|Hge].
  - rewrite (copy_step_in _ _ _ b) by done. cbn.
    rewrite IH by (rewrite ?length_insert; lia).
    by rewrite length_insert.
  - rewrite (copy_step_past _ _ _ b) by (done || lia). cbn.
    by replace i with (length dst) by lia.
Qed.
End copy_loop.

(** ** [TxKeyFromProto] and [ToProto] on the bytes they copy *)

(** The body of the loop of [TxKeyFromProto], then the loop, read on the
    list of the array's bytes. *)
Lemma TxKeyFromProto_step_slice (bs : list byte) i (a : TxKey) :
  vec_to_list <$> (b ← slice_index bs i; array_store a i b)
  = copy_step bs i (vec_to_list a).
Proof.
  unfold copy_step. destruct (slice_index bs i) as [b|p]; cbn; [|done].
  apply array_store_slice.
Qed.

Lemma TxKeyFromProto_loop_slice (bs : list byte) : ∀ n i (a : TxKey),
  vec_to_list <$>
    for_range_from (λ i txBzs, b ← slice_index bs i; array_store txBzs i b) i n a
  = for_range_from (copy_step bs) i n (vec_to_list a).
Proof.
  induction n as [|n IH]; intros i a; [done|].
  cbn [for_range_from]. rewrite <- TxKeyFromProto_step_slice.
  destruct (slice_index bs i ≫= _) as [a'|p]; cbn; [apply IH | done].
Qed.

(** The loop of [ToProto], with a non-nil receiver. *)
Lemma ToProto_loop_slice (k : TxKey) : ∀ n i (txBzs : list byte),
  for_range_from (λ i txBzs,
      b ← match Some k with
          | None => Panics NilDereference
          | Some a => array_index a i
          end;
      slice_store txBzs i b) i n txBzs
  = for_range_from (copy_step (vec_to_list k)) i n txBzs.
Proof.
  induction n as [|n IH]; intros i txBzs; [done|].
  cbn [for_range_from]. rewrite array_index_slice. fold (copy_step (vec_to_list k) i txBzs).
  destruct (copy_step (vec_to_list k) i txBzs) as [l|p]; cbn; [apply IH | done].
Qed.

Lemma length_zeroTxKey : length (vec_to_list zeroTxKey) = Size.
Proof. apply length_vec_to_list. Qed.

(** A present message whose field fits the key converts, to the field's
    bytes followed by zero bytes. *)
Lemma TxKeyFromProto_fits (dp : tmproto.TxKey) :
  length (tmproto.f_TxKey dp) ≤ Size →
  ∃ k : TxKey,
    TxKeyFromProto (Some dp) = Returns (k, None) ∧
    vec_to_list k
    = tmproto.f_TxKey dp ++ replicate (Size - length (tmproto.f_TxKey dp)) x00.
Proof.
  destruct dp as [bs]. cbn [tmproto.f_TxKey]. intros Hlen.
  unfold TxKeyFromProto, for_range. cbn [tmproto.f_TxKey].
  pose proof (TxKeyFromProto_loop_slice bs (length bs) 0 zeroTxKey) as E.
  rewrite copy_loop_ok in E by (rewrite ?length_zeroTxKey; lia).
  apply fmap_Returns_inv in E as (k & -> & Hk). exists k. split; [done|].
  rewrite Hk, take_0, drop_0, Nat.add_0_l. cbn [app].
  rewrite take_ge by done. f_equal.
  unfold zeroTxKey. by rewrite vec_to_list_replicate, drop_replicate.
Qed.

(** A present message whose field is longer than the key makes the store
    [txBzs[32] = dp.TxKey[32]] panic. *)
Lemma TxKeyFromProto_overrun (dp : tmproto.TxKey) :
  Size < length (tmproto.f_TxKey dp) →
  TxKeyFromProto (Some dp) = Panics (IndexOutOfRange Size Size).
Proof.
  destruct dp as [bs]. cbn [tmproto.f_TxKey]. intros Hlen.
  unfold TxKeyFromProto, for_range. cbn [tmproto.f_TxKey].
  pose proof (TxKeyFromProto_loop_slice bs (length bs) 0 zeroTxKey) as E.
  rewrite copy_loop_overrun in E by (rewrite ?length_zeroTxKey; lia).
  rewrite length_zeroTxKey in E. apply fmap_Panics_inv in E. by rewrite E.
Qed.

Lemma ToProto_bytes (k : TxKey) :
  ToProto (Some k) = Returns (tmproto.mkTxKey (vec_to_list k)).
Proof.
  unfold ToProto, for_range.
  destruct (decide (0 < Size)) as [_|H]; [|by destruct H; compute; lia].
  rewrite ToProto_loop_slice.
  rewrite copy_loop_ok
    by (unfold make_bytes; rewrite ?length_replicate, ?length_vec_to_list; lia).
  rewrite take_0, drop_0, Nat.add_0_l. cbn [app mbind outcome_bind].
  rewrite take_ge by (rewrite length_vec_to_list; lia).
  unfold make_bytes. rewrite drop_ge by (rewrite length_replicate; lia).
  by rewrite (right_id_L [] (++)).
Qed.

(** ** The key and its wire form *)

(** C7: [ToProto] on a key returns, without any panic or error, a wire
    message whose field has exactly 32 bytes, the i-th of them the i-th byte
    of the key. *)
Theorem ToProto_copies_key (k : TxKey) :
  ∃ tp : tmproto.TxKey,
    ToProto (Some k) = Returns tp ∧
    length (tmproto.f_TxKey tp) = 32 ∧
    tmproto.f_TxKey tp = vec_to_list k ∧
    ∀ i : fin Size, tmproto.f_TxKey tp !! fin_to_nat i = Some (k !!! i).
Proof.
  exists (tmproto.mkTxKey (vec_to_list k)). cbn [tmproto.f_TxKey].
  split_and!; [apply ToProto_bytes | apply length_vec_to_list | done |].
  intros i. by apply vlookup_lookup.
Qed.

(** C4: [TxKeyFromProto] on a nil message returns the zero key together
    with a non-nil error whose message is "nil data". *)
Theorem TxKeyFromProto_nil :
  ∃ e : err,
    TxKeyFromProto None = Returns (zeroTxKey, Some e) ∧
    Error e = Returns "nil data" ∧
    ∀ k, TxKeyFromProto None ≠ Returns (k, None).
Proof. exists (errorString "nil data"). by split_and!. Qed.

(** C8: a present message whose field has fewer than 32 bytes converts
    without error: the key starts with the bytes of the field, in place, and
    every byte after them is zero. *)
Theorem TxKeyFromProto_short (dp : tmproto.TxKey) :
  length (tmproto.f_TxKey dp) < Size →
  ∃ k : TxKey,
    TxKeyFromProto (Some dp) = Returns (k, None) ∧
    vec_to_list k
    = tmproto.f_TxKey dp ++ replicate (Size - length (tmproto.f_TxKey dp)) x00 ∧
    (∀ i b, tmproto.f_TxKey dp !! i = Some b → vec_to_list k !! i = Some b) ∧
    (∀ i, length (tmproto.f_TxKey dp) ≤ i < Size → vec_to_list k !! i = Some x00).
Proof.
  intros Hlen. destruct (TxKeyFromProto_fits dp) as (k & Hk & Hbytes); [lia|].
  exists k. split_and!; [done..| |].
  - intros i b Hb. rewrite Hbytes. by apply lookup_app_l_Some.
  - intros i [Hi1 Hi2]. rewrite Hbytes, lookup_app_r by done.
    apply lookup_replicate_2. lia.
Qed.

Lemma TxKeyFromProto_short_witness :
  ∃ k : TxKey,
    TxKeyFromProto (Some (tmproto.mkTxKey [x0a; x0b; x0c])) = Returns (k, None) ∧
    vec_to_list k = [x0a; x0b; x0c] ++ replicate (Size - 3) x00 ∧
    (∀ i b, [x0a; x0b; x0c] !! i = Some b → vec_to_list k !! i = Some b) ∧
    (∀ i, 3 ≤ i < Size → vec_to_list k !! i = Some x00).
Proof.
  apply (TxKeyFromProto_short (tmproto.mkTxKey [x0a; x0b; x0c])).
  unfold Size. cbn. lia.
Defined.

(** C1: on a present message whose field has more than 32 bytes,
    [TxKeyFromProto] does not return: the store into the 32-byte array at
    index 32 panics. The bytes past the array are not ignored. *)
Theorem TxKeyFromProto_overlong_panics (dp : tmproto.TxKey) :
  Size < length (tmproto.f_TxKey dp) →
  TxKeyFromProto (Some dp) = Panics (IndexOutOfRange 32 32) ∧
  ∀ r, TxKeyFromProto (Some dp) ≠ Returns r.
Proof.
  intros Hlen. rewrite (TxKeyFromProto_overrun dp Hlen). by split.
Qed.

Lemma TxKeyFromProto_overlong_witness :
  TxKeyFromProto (Some (tmproto.mkTxKey (replicate 33 x00)))
    = Panics (IndexOutOfRange 32 32) ∧
  ∀ r, TxKeyFromProto (Some (tmproto.mkTxKey (replicate 33 x00))) ≠ Returns r.
Proof.
  apply (TxKeyFromProto_overlong_panics (tmproto.mkTxKey (replicate 33 x00))).
  unfold Size. cbn. lia.
Defined.

(** C2: converting a key to its wire form and back returns that key and a
    nil error, for every 32-byte key, hence for the key that any derivation
    function yields on any transaction bytes. *)
Theorem TxKey_roundtrip (deriveKey : list byte → TxKey) :
  (∀ k : TxKey, roundtrip k = Returns (k, None)) ∧
  (∀ b : list byte, roundtrip (deriveKey b) = Returns (deriveKey b, None)).
Proof.
  assert (∀ k : TxKey, roundtrip k = Returns (k, None)) as H; [|by split].
  intros k. unfold roundtrip. rewrite ToProto_bytes. cbn [mbind outcome_bind].
  destruct (TxKeyFromProto_fits (tmproto.mkTxKey (vec_to_list k)))
    as (k' & -> & Hk'); cbn [tmproto.f_TxKey] in *.
  { by rewrite length_vec_to_list. }
  rewrite length_vec_to_list, Nat.sub_diag in Hk'. cbn [replicate] in Hk'.
  rewrite (right_id_L [] (++)) in Hk'.
  by apply vec_to_list_inj2 in Hk' as ->.
Qed.

(** ** Lists of keys *)

Lemma wire_fits_converts dp : wire_fits dp → ∃ k, converts dp k.
Proof.
  destruct dp as [m|]; [|done]. intros Hm.
  destruct (TxKeyFromProto_fits m Hm) as (k & Hk & _). by exists k.
Qed.

(** Every conversion succeeds: the loop appends the keys in order. *)
Lemma TxKeysListFromProto_loop_all dps keys :
  Forall2 converts dps keys →
  ∀ txKeys, TxKeysListFromProto_loop dps txKeys = Returns (txKeys ++ keys, None).
Proof.
  induction 1 as [|dp k dps keys Hk _ IH]; intros txKeys; cbn.
  - by rewrite (right_id_L [] (++)).
  - rewrite Hk. cbn. by rewrite IH, <- (assoc_L (++)).
Qed.

(** The first element that does not convert is a nil one: the loop returns
    its error and a nil slice, whatever it had appended. *)
Lemma TxKeysListFromProto_loop_nil dps : ∀ i txKeys,
  dps !! i = Some None →
  (∀ j dp, j < i → dps !! j = Some dp → ∃ k, converts dp k) →
  TxKeysListFromProto_loop dps txKeys = Returns ([], errors.New "nil data").
Proof.
  induction dps as [|dp dps IH]; intros i txKeys Hi Hbefore; [done|].
  destruct i as [|i]; cbn in Hi.
  - by injection Hi as ->.
  - destruct (Hbefore 0 dp) as [k Hk]; [lia | done |].
    cbn. rewrite Hk. cbn. apply (IH i); [done|].
    intros j dp' Hj Hdp'. apply (Hbefore (S j)); [lia | done].
Qed.

(** C6: on a list of present messages whose fields fit the key,
    [TxKeysListFromProto] returns a nil error and as many keys as there are
    messages, the i-th key being the conversion of the i-th message. *)
Theorem TxKeysListFromProto_valid (dps : list (option tmproto.TxKey)) :
  Forall wire_fits dps →
  ∃ txKeys : list TxKey,
    TxKeysListFromProto dps = Returns (txKeys, None) ∧
    length txKeys = length dps ∧
    ∀ i dp, dps !! i = Some dp →
      ∃ k, txKeys !! i = Some k ∧ TxKeyFromProto dp = Returns (k, None).
Proof.
  intros Hfit.
  assert (∃ keys, Forall2 converts dps keys) as [keys Hkeys].
  { induction Hfit as [|dp dps Hdp _ [keys IH]]; [by exists []|].
    destruct (wire_fits_converts dp Hdp) as [k Hk].
    exists (k :: keys). by constructor. }
  exists keys. split_and!.
  - unfold TxKeysListFromProto. by rewrite (TxKeysListFromProto_loop_all dps keys).
  - symmetry. by eapply Forall2_length.
  - intros i dp Hdp.
    destruct (Forall2_lookup_l _ _ _ _ _ Hkeys Hdp) as (k & Hk & Hconv). eauto.
Qed.

Lemma TxKeysListFromProto_valid_witness :
  ∃ txKeys : list TxKey,
    TxKeysListFromProto
      [Some (tmproto.mkTxKey [x01; x02]); Some (tmproto.mkTxKey (replicate 32 xff))]
    = Returns (txKeys, None) ∧
    length txKeys = 2 ∧
    ∀ i dp,
      [Some (tmproto.mkTxKey [x01; x02]); Some (tmproto.mkTxKey (replicate 32 xff))]
        !! i = Some dp →
      ∃ k, txKeys !! i = Some k ∧ TxKeyFromProto dp = Returns (k, None).
Proof.
  apply (TxKeysListFromProto_valid
    [Some (tmproto.mkTxKey [x01; x02]); Some (tmproto.mkTxKey (replicate 32 xff))]).
  repeat constructor; unfold Size; cbn; lia.
Defined.

(** C3: when element i of the list is nil and every element before it
    converts, [TxKeysListFromProto] returns the error of element i, the
    "nil data" error of [TxKeyFromProto], and a nil slice: none of the keys
    converted before element i is returned. *)
Theorem TxKeysListFromProto_fail_fast (dps : list (option tmproto.TxKey)) (i : nat) :
  dps !! i = Some None →
  (∀ j dp, j < i → dps !! j = Some dp → ∃ k, TxKeyFromProto dp = Returns (k, None)) →
  TxKeysListFromProto dps = Returns ([], errors.New "nil data") ∧
  snd <$> TxKeyFromProto None = Returns (errors.New "nil data").
Proof.
  intros Hi Hbefore. split; [|done].
  by apply (TxKeysListFromProto_loop_nil dps i).
Qed.

Lemma TxKeysListFromProto_fail_fast_witness :
  TxKeysListFromProto
    [Some (tmproto.mkTxKey [x01]); None; Some (tmproto.mkTxKey (replicate 33 x00))]
  = Returns ([], errors.New "nil data") ∧
  snd <$> TxKeyFromProto None = Returns (errors.New "nil data").
Proof.
  apply (TxKeysListFromProto_fail_fast
    [Some (tmproto.mkTxKey [x01]); None; Some (tmproto.mkTxKey (replicate 33 x00))] 1).
  - reflexivity.
  - intros j dp Hj Hdp. destruct j as [|j]; [|lia].
    injection Hdp as <-. eexists. vm_compute. reflexivity.
Defined.

(** ** Substrings *)

Section substrings.
Implicit Types s sub pre post : string.

Lemma append_cons c s post : String c s +:+ post = String c (s +:+ post).
Proof. reflexivity. Qed.

Lemma HasPrefix_app sub post : strings.HasPrefix (sub +:+ post) sub = true.
Proof.
  induction sub as [|c sub IH]; [done|].
  rewrite append_cons. cbn [strings.HasPrefix].
  rewrite bool_decide_eq_true_2 by done. exact IH.
Qed.

Lemma HasPrefix_inv sub : ∀ s,
  strings.HasPrefix s sub = true → ∃ post, s = sub +:+ post.
Proof.
  induction sub as [|c sub IH]; intros s; cbn [strings.HasPrefix].
  - intros _. by exists s.
  - destruct s as [|d s]; [done|].
    intros [Hc Hs]%andb_prop. apply bool_decide_eq_true_1 in Hc as ->.
    destruct (IH s Hs) as [post ->]. by exists post.
Qed.

Lemma Contains_HasPrefix s sub :
  strings.HasPrefix s sub = true → strings.Contains s sub = true.
Proof. intros H. destruct s; cbn in *; by rewrite H. Qed.

Lemma Contains_app_r pre s sub :
  strings.Contains s sub = true → strings.Contains (pre +:+ s) sub = true.
Proof.
  intros H. induction pre as [|c pre IH]; [done|].
  rewrite append_cons. cbn [strings.Contains].
  rewrite IH. apply orb_true_r.
Qed.

Lemma Contains_middle pre sub post :
  strings.Contains (pre +:+ sub +:+ post) sub = true.
Proof. apply Contains_app_r, Contains_HasPrefix, HasPrefix_app. Qed.

(** [Contains] is the substring relation. *)
Lemma Contains_spec s sub :
  strings.Contains s sub = true ↔ ∃ pre post, s = pre +:+ sub +:+ post.
Proof.
  split; [|intros (pre & post & ->); apply Contains_middle].
  induction s as [|c s IH]; cbn.
  - rewrite orb_false_r. intros [post ->]%HasPrefix_inv. by exists "", post.
  - intros [H|H]%orb_prop.
    + apply HasPrefix_inv in H as [post ->]. by exists "", post.
    + destruct (IH H) as (pre & post & ->). by exists (String c pre), post.
Qed.
End substrings.

(** ** Messages of the error values *)

Example verb_d_decimal :
  fmt.verb_d 100 = "100" ∧ fmt.verb_d 0 = "0" ∧ fmt.verb_d (-42) = "-42".
Proof. by vm_compute. Qed.

Lemma ErrTxTooLarge_message Max Actual :
  Error (ErrTxTooLarge Max Actual)
  = Returns ("Tx too large. Max size is " +:+ fmt.verb_d Max +:+
             ", but got " +:+ fmt.verb_d Actual +:+ "").
Proof. reflexivity. Qed.

Lemma ErrMempoolIsFull_message NumTxs MaxTxs TxsBytes MaxTxsBytes :
  Error (ErrMempoolIsFull NumTxs MaxTxs TxsBytes MaxTxsBytes)
  = Returns ("mempool is full: number of txs " +:+ fmt.verb_d NumTxs +:+
             " (max: " +:+ fmt.verb_d MaxTxs +:+
             "), total txs bytes " +:+ fmt.verb_d TxsBytes +:+
             " (max: " +:+ fmt.verb_d MaxTxsBytes +:+ ")").
Proof. reflexivity. Qed.

Create HintDb contains.
#[local] Hint Resolve Contains_middle Contains_app_r : contains.

(** C9: the message of [ErrTxTooLarge] contains the decimal renderings of
    [Max] and of [Actual], and the message of [ErrMempoolIsFull] those of
    [NumTxs], [MaxTxs], [TxsBytes] and [MaxTxsBytes], whatever the values of
    the fields; with Max 100 and Actual 150 the message contains "100" and
    "150", and with 5, 10, 500 and 1000 it contains these four numbers. *)
Theorem Error_embeds_fields :
  (∀ Max Actual : Z, ∃ msg,
     Error (ErrTxTooLarge Max Actual) = Returns msg ∧
     strings.Contains msg (fmt.verb_d Max) = true ∧
     strings.Contains msg (fmt.verb_d Actual) = true) ∧
  (∀ NumTxs MaxTxs TxsBytes MaxTxsBytes : Z, ∃ msg,
     Error (ErrMempoolIsFull NumTxs MaxTxs TxsBytes MaxTxsBytes) = Returns msg ∧
     strings.Contains msg (fmt.verb_d NumTxs) = true ∧
     strings.Contains msg (fmt.verb_d MaxTxs) = true ∧
     strings.Contains msg (fmt.verb_d TxsBytes) = true ∧
     strings.Contains msg (fmt.verb_d MaxTxsBytes) = true) ∧
  (∃ msg,
     Error (ErrTxTooLarge 100 150) = Returns msg ∧
     strings.Contains msg "100" = true ∧ strings.Contains msg "150" = true) ∧
  (∃ msg,
     Error (ErrMempoolIsFull 5 10 500 1000) = Returns msg ∧
     strings.Contains msg "5" = true ∧ strings.Contains msg "10" = true ∧
     strings.Contains msg "500" = true ∧ strings.Contains msg "1000" = true).
Proof.
  split_and!.
  - intros Max Actual. eexists. split; [apply ErrTxTooLarge_message|].
    split; auto 6 with contains.
  - intros NumTxs MaxTxs TxsBytes MaxTxsBytes.
    eexists. split; [apply ErrMempoolIsFull_message|].
    split_and!; auto 10 with contains.
  - eexists. split; [reflexivity|]. by vm_compute.
  - eexists. split; [reflexivity|]. by vm_compute.
Qed.

(** C10: the message of [ErrPreCheck] is the message of its [Reason] and
    nothing else, for every non-nil [Reason] (a [Reason] whose own [Error]
    panics makes it panic the same way); with a nil [Reason] the call
    panics on the nil interface. *)
Theorem ErrPreCheck_Error_passthrough :
  (∀ r : err, Error (ErrPreCheck (Some r)) = Error r) ∧
  (∀ (r : err) (msg : string),
     Error r = Returns msg → Error (ErrPreCheck (Some r)) = Returns msg) ∧
  Error (ErrPreCheck None) = Panics NilDereference ∧
  (∀ msg, Error (ErrPreCheck None) ≠ Returns msg).
Proof. by split_and!. Qed.

Lemma ErrPreCheck_Error_passthrough_witness :
  Error (ErrPreCheck (Some (ErrTxTooLarge 100 150)))
  = Returns "Tx too large. Max size is 100, but got 150".
Proof.
  apply (proj1 (proj2 ErrPreCheck_Error_passthrough) (ErrTxTooLarge 100 150)).
  vm_compute. reflexivity.
Defined.

(** ** Classifying pre-check failures *)

(** [As_from] is the loop of [errors.As]: test the type, else unwrap. *)
Lemma As_from_loop (e : err) (T : errtype) :
  errors.As_from e T
  = if decide (TypeOf e = T) then true
    else match errors.Unwrap e with
         | Some cause => errors.As_from cause T
         | None => false
         end.
Proof. by destruct e. Qed.

Lemma As_from_type (e : err) (T : errtype) :
  TypeOf e = T → errors.As_from e T = true.
Proof. intros H. by rewrite As_from_loop, decide_True. Qed.

Lemma As_from_unwraps (e e' : err) (T : errtype) :
  unwraps_to e e' → errors.As_from e' T = true → errors.As_from e T = true.
Proof.
  unfold unwraps_to. intros He He'. rewrite As_from_loop, He.
  by destruct (decide _).
Qed.

Lemma As_from_wraps (e p : err) (T : errtype) :
  wraps e p → TypeOf p = T → errors.As_from e T = true.
Proof.
  intros Hw Hp. induction Hw as [e p Hl | e e' p Hl _ IH].
  - eapply As_from_unwraps; [done|]. by apply As_from_type.
  - eapply As_from_unwraps; [done|]. by apply IH.
Qed.

(** A true answer comes with the error of type [T] that the chain reaches. *)
Lemma As_from_reaches (T : errtype) : ∀ e : err,
  errors.As_from e T = true → ∃ p, rtc unwraps_to e p ∧ TypeOf p = T.
Proof.
  induction e as [ | msg cause IH | | | | | | | ];
    rewrite As_from_loop; destruct (decide _) as [Heq|Hne];
    try (intros _; eexists; split; [apply rtc_refl | exact Heq]);
    try discriminate.
  cbn. intros (p & Hp & HT)%IH. exists p. split; [|done].
  by eapply rtc_l.
Qed.

(** C5: [IsPreCheckError] is true on an [ErrPreCheck] whatever its
    [Reason], and on every error that wraps, through one or more links, an
    [ErrPreCheck]; it is false on every other variant of the taxonomy and,
    without a panic, on the nil error; and it is true only on an error whose
    chain reaches an [ErrPreCheck]. *)
Theorem IsPreCheckError_classifies :
  (∀ Reason : error, IsPreCheckError (Some (ErrPreCheck Reason)) = true) ∧
  (∀ e p : err,
     wraps e p → TypeOf p = T_ErrPreCheck → IsPreCheckError (Some e) = true) ∧
  (∀ e : err, other_variant e = true → IsPreCheckError (Some e) = false) ∧
  (∀ Max Actual : Z, IsPreCheckError (Some (ErrTxTooLarge Max Actual)) = false) ∧
  IsPreCheckError None = false ∧
  (∀ err : error,
     IsPreCheckError err = true →
     ∃ e p, err = Some e ∧ rtc unwraps_to e p ∧ TypeOf p = T_ErrPreCheck).
Proof.
  split_and!; try done.
  - intros e p Hw Hp. by apply (As_from_wraps e p).
  - by intros [].
  - intros [e|]; [|done]. cbn. intros (p & Hp & HT)%As_from_reaches. eauto.
Qed.

Lemma IsPreCheckError_classifies_witness :
  IsPreCheckError
    (Some (wrapError "CheckTx: mempool: bad nonce"
       (wrapError "mempool: bad nonce" (ErrPreCheck (errors.New "bad nonce")))))
  = true.
Proof.
  apply (proj1 (proj2 IsPreCheckError_classifies) _
           (ErrPreCheck (errors.New "bad nonce"))).
  - eapply tc_l; [reflexivity|]. apply tc_once. reflexivity.
  - reflexivity.
Defined.


(** * Further properties *)

(** ** Outcomes of [TxKeyFromProto] *)

Lemma TxKeyFromProto_cases (dp : option tmproto.TxKey) :
  match dp with
  | None => TxKeyFromProto dp = Returns (zeroTxKey, errors.New "nil data")
  | Some m =>
      if decide (length (tmproto.f_TxKey m) ≤ Size)
      then ∃ k : TxKey, TxKeyFromProto dp = Returns (k, None) ∧
                        vec_to_list k = zero_padded (tmproto.f_TxKey m)
      else TxKeyFromProto dp = Panics (IndexOutOfRange Size Size)
  end.
Proof.
  destruct dp as [m|]; [|done]. case_decide.
  - by apply TxKeyFromProto_fits.
  - apply TxKeyFromProto_overrun. lia.
Qed.

(** X1: what [TxKeyFromProto] does is decided by the message alone: it
    returns a nil error exactly on a present message of at most 32 bytes, a
    non-nil error exactly on the nil message, and it panics exactly on a
    present message of more than 32 bytes. *)
Theorem TxKeyFromProto_outcome_iff (dp : option tmproto.TxKey) :
  ((∃ k, TxKeyFromProto dp = Returns (k, None)) ↔ wire_fits dp) ∧
  ((∃ k e, TxKeyFromProto dp = Returns (k, Some e)) ↔ dp = None) ∧
  ((∃ p, TxKeyFromProto dp = Panics p) ↔
     ∃ m, dp = Some m ∧ Size < length (tmproto.f_TxKey m)).
Proof.
  pose proof (TxKeyFromProto_cases dp) as H.
  destruct dp as [m|]; [case_decide as Hlen|]; cbn [wire_fits].
  - destruct H as (k & Hk & _). rewrite Hk. split_and!.
    + split; [done | by exists k].
    + split; [by intros (? & ? & ?) | done].
    + split; [by intros [? ?] | intros (m' & [= <-] & ?); lia].
  - rewrite H. split_and!.
    + split; [by intros [? ?] | done].
    + split; [by intros (? & ? & ?) | done].
    + split; [intros _; exists m; split; [done | lia] | by eexists].
  - rewrite H. split_and!.
    + split; [by intros [? ?] | done].
    + split; [done | by eexists _, _].
    + split; [by intros [? ?] | by intros (? & ? & ?)].
Qed.

Lemma zero_padded_app_zeros (bs : list byte) (n : nat) :
  length bs + n ≤ Size →
  zero_padded (bs ++ replicate n x00) = zero_padded bs.
Proof.
  intros Hlen. unfold zero_padded.
  rewrite length_app, length_replicate, <- (assoc_L (++)), <- replicate_add.
  do 2 f_equal. lia.
Qed.

(** X2: zero bytes at the end of the field do not show in the key: a field
    and the same field followed by zero bytes, both within 32 bytes, convert
    to the same key. The conversion from the wire is not injective. *)
Theorem TxKeyFromProto_trailing_zeros (bs : list byte) (n : nat) :
  length bs + n ≤ Size →
  TxKeyFromProto (Some (tmproto.mkTxKey (bs ++ replicate n x00)))
  = TxKeyFromProto (Some (tmproto.mkTxKey bs)).
Proof.
  intros Hlen.
  destruct (TxKeyFromProto_fits (tmproto.mkTxKey (bs ++ replicate n x00)))
    as (k1 & -> & H1).
  { cbn. rewrite length_app, length_replicate. lia. }
  destruct (TxKeyFromProto_fits (tmproto.mkTxKey bs)) as (k2 & -> & H2).
  { cbn. lia. }
  cbn [tmproto.f_TxKey] in *. fold (zero_padded bs) in H2.
  fold (zero_padded (bs ++ replicate n x00)) in H1.
  rewrite zero_padded_app_zeros in H1 by done. rewrite <- H2 in H1.
  by apply vec_to_list_inj2 in H1 as ->.
Qed.

Lemma TxKeyFromProto_trailing_zeros_witness :
  TxKeyFromProto (Some (tmproto.mkTxKey ([x01; x02] ++ replicate 3 x00)))
  = TxKeyFromProto (Some (tmproto.mkTxKey [x01; x02])).
Proof.
  apply (TxKeyFromProto_trailing_zeros [x01; x02] 3). unfold Size. cbn. lia.
Defined.

(** X3: a present message of at most 32 bytes that is turned into a key
    and back comes out with its field filled up to 32 bytes with zero
    bytes; it comes out unchanged exactly when its field has 32 bytes. *)
Theorem rewire_pads (m : tmproto.TxKey) :
  length (tmproto.f_TxKey m) ≤ Size →
  rewire (Some m) = Returns (tmproto.mkTxKey (zero_padded (tmproto.f_TxKey m))) ∧
  (rewire (Some m) = Returns m ↔ length (tmproto.f_TxKey m) = Size).
Proof.
  intros Hlen. unfold rewire.
  destruct (TxKeyFromProto_fits m Hlen) as (k & -> & Hk).
  cbn [mbind outcome_bind fst]. rewrite ToProto_bytes, Hk.
  fold (zero_padded (tmproto.f_TxKey m)). split; [done|].
  destruct m as [bs]. cbn [tmproto.f_TxKey] in *. unfold zero_padded. split.
  - intros [= Heq]. apply (f_equal length) in Heq.
    rewrite length_app, length_replicate in Heq. lia.
  - intros ->. rewrite Nat.sub_diag. cbn [replicate].
    by rewrite (right_id_L [] (++)).
Qed.

Lemma rewire_pads_witness :
  rewire (Some (tmproto.mkTxKey [xaa]))
    = Returns (tmproto.mkTxKey (zero_padded [xaa])) ∧
  (rewire (Some (tmproto.mkTxKey [xaa])) = Returns (tmproto.mkTxKey [xaa])
   ↔ length [xaa] = Size).
Proof.
  apply (rewire_pads (tmproto.mkTxKey [xaa])). unfold Size. cbn. lia.
Defined.

(** ** [ToProto] *)

(** X4: [ToProto] returns only for a non-nil receiver, and then a message
    of exactly 32 bytes: on a nil receiver it panics on the first read of
    the key, and the message with an empty field that it allocates first is
    never what it returns. *)
Theorem ToProto_returns_full (txKey : option TxKey) :
  (txKey = None → ToProto txKey = Panics NilDereference) ∧
  (∀ tp, ToProto txKey = Returns tp →
     ∃ k, txKey = Some k ∧ tmproto.f_TxKey tp = vec_to_list k ∧
          length (tmproto.f_TxKey tp) = Size).
Proof.
  split; [by intros ->|]. intros tp. destruct txKey as [k|]; [|done].
  rewrite ToProto_bytes. intros [= <-]. exists k.
  cbn. by rewrite length_vec_to_list.
Qed.

Lemma ToProto_returns_full_witness :
  ToProto None = Panics NilDereference.
Proof. apply (proj1 (ToProto_returns_full None)). reflexivity. Defined.

(** X5: two keys with the same wire form are the same key. *)
Theorem ToProto_inj (k1 k2 : TxKey) :
  ToProto (Some k1) = ToProto (Some k2) → k1 = k2.
Proof.
  rewrite !ToProto_bytes. intros [= H]. by apply vec_to_list_inj2.
Qed.

Lemma ToProto_inj_witness : zeroTxKey = zeroTxKey.
Proof. apply (ToProto_inj zeroTxKey zeroTxKey). reflexivity. Defined.

(** ** Outcomes of [TxKeysListFromProto] *)

(** The loop on two lists in a row: the second is reached only with a nil
    error, and with the keys appended so far. *)
Lemma TxKeysListFromProto_loop_app dps1 dps2 : ∀ txKeys,
  TxKeysListFromProto_loop (dps1 ++ dps2) txKeys
  = match TxKeysListFromProto_loop dps1 txKeys with
    | Returns (txKeys', None) => TxKeysListFromProto_loop dps2 txKeys'
    | other => other
    end.
Proof.
  induction dps1 as [|dp dps1 IH]; intros txKeys; [done|].
  cbn [app TxKeysListFromProto_loop].
  destruct (TxKeyFromProto dp) as [[k [e|]]|p]; cbn; [done | apply IH | done].
Qed.

(** The slice built so far only prefixes the result of a run without error. *)
Lemma TxKeysListFromProto_loop_acc dps : ∀ txKeys,
  TxKeysListFromProto_loop dps txKeys
  = match TxKeysListFromProto_loop dps [] with
    | Returns (keys, None) => Returns (txKeys ++ keys, None)
    | other => other
    end.
Proof.
  induction dps as [|dp dps IH]; intros txKeys; cbn.
  - by rewrite (right_id_L [] (++)).
  - destruct (TxKeyFromProto dp) as [[k [e|]]|p]; cbn; [done| |done].
    rewrite (IH (txKeys ++ [k])), (IH [k]).
    destruct (TxKeysListFromProto_loop dps []) as [[keys [e|]]|p]; [done| |done].
    by rewrite <- (assoc_L (++)).
Qed.

Lemma TxKeysListFromProto_loop_success dps : ∀ txKeys res,
  TxKeysListFromProto_loop dps txKeys = Returns (res, None) →
  ∃ keys, res = txKeys ++ keys ∧ Forall2 converts dps keys.
Proof.
  induction dps as [|dp dps IH]; intros txKeys res; cbn.
  - intros [= <-]. exists []. by rewrite (right_id_L [] (++)).
  - destruct (TxKeyFromProto dp) as [[k [e|]]|p] eqn:Hdp; cbn; [done| |done].
    intros (keys & -> & Hkeys)%IH. exists (k :: keys).
    split; [by rewrite <- (assoc_L (++)) | by constructor].
Qed.

(** X6: [TxKeysListFromProto] returns a list of keys and a nil error
    exactly when every message of the input converts, each key being the
    conversion of the message at the same position. *)
Theorem TxKeysListFromProto_success_iff
    (dps : list (option tmproto.TxKey)) (keys : list TxKey) :
  TxKeysListFromProto dps = Returns (keys, None) ↔
  Forall2 (λ dp k, TxKeyFromProto dp = Returns (k, None)) dps keys.
Proof.
  split.
  - intros (keys' & -> & H)%TxKeysListFromProto_loop_success. done.
  - intros H. unfold TxKeysListFromProto.
    by rewrite (TxKeysListFromProto_loop_all dps keys).
Qed.

Lemma TxKeysListFromProto_loop_error dps : ∀ txKeys res e,
  TxKeysListFromProto_loop dps txKeys = Returns (res, Some e) →
  res = [] ∧ e = errorString "nil data" ∧
  ∃ i, dps !! i = Some None ∧ ∀ j dp, j < i → dps !! j = Some dp → wire_fits dp.
Proof.
  induction dps as [|dp dps IH]; intros txKeys res e; cbn; [done|].
  pose proof (TxKeyFromProto_cases dp) as Hdp.
  destruct dp as [m|]; [case_decide|].
  - destruct Hdp as (k & -> & _). cbn.
    intros (-> & -> & i & Hi & Hbefore)%IH. split_and!; [done..|].
    exists (S i). split; [done|]. intros [|j] dp Hj; cbn.
    + intros [= <-]. done.
    + apply Hbefore. lia.
  - by rewrite Hdp.
  - rewrite Hdp. cbn. intros [= <- <-]. split_and!; [done..|].
    exists 0. split; [done|]. intros j dp Hj. lia.
Qed.

(** X7: when [TxKeysListFromProto] returns a non-nil error, the error is
    the "nil data" error, the list of keys is nil, and the input holds a
    nil message before which every message is present with at most 32
    bytes. *)
Theorem TxKeysListFromProto_error_shape
    (dps : list (option tmproto.TxKey)) (keys : list TxKey) (e : err) :
  TxKeysListFromProto dps = Returns (keys, Some e) →
  keys = [] ∧ Error e = Returns "nil data" ∧
  ∃ i, dps !! i = Some None ∧ ∀ j dp, j < i → dps !! j = Some dp → wire_fits dp.
Proof.
  intros (-> & -> & H)%TxKeysListFromProto_loop_error. done.
Qed.

Lemma TxKeysListFromProto_error_shape_witness :
  [] = @nil TxKey ∧ Error (errorString "nil data") = Returns "nil data" ∧
  ∃ i, [Some (tmproto.mkTxKey [x07]); None] !! i = Some None ∧
       ∀ j dp, j < i →
         [Some (tmproto.mkTxKey [x07]); None] !! j = Some dp → wire_fits dp.
Proof.
  apply (TxKeysListFromProto_error_shape [Some (tmproto.mkTxKey [x07]); None]).
  vm_compute. reflexivity.
Defined.

Lemma TxKeysListFromProto_loop_panics dps : ∀ i m txKeys,
  dps !! i = Some (Some m) → Size < length (tmproto.f_TxKey m) →
  (∀ j dp, j < i → dps !! j = Some dp → ∃ k, converts dp k) →
  TxKeysListFromProto_loop dps txKeys = Panics (IndexOutOfRange Size Size).
Proof.
  induction dps as [|dp dps IH]; intros i m txKeys Hi Hm Hbefore; [done|].
  destruct i as [|i]; cbn in Hi.
  - injection Hi as ->. cbn [TxKeysListFromProto_loop].
    by rewrite TxKeyFromProto_overrun.
  - destruct (Hbefore 0 dp) as [k Hk]; [lia | done |].
    cbn. rewrite Hk. cbn. apply (IH i m); [done..|].
    intros j dp' Hj Hdp'. apply (Hbefore (S j)); [lia | done].
Qed.

(** X8: when the first message that does not convert is a present one of
    more than 32 bytes, [TxKeysListFromProto] panics: it returns neither
    the keys converted before it nor the error of a nil message after it. *)
Theorem TxKeysListFromProto_panics
    (dps : list (option tmproto.TxKey)) (i : nat) (m : tmproto.TxKey) :
  dps !! i = Some (Some m) → Size < length (tmproto.f_TxKey m) →
  (∀ j dp, j < i → dps !! j = Some dp → ∃ k, TxKeyFromProto dp = Returns (k, None)) →
  TxKeysListFromProto dps = Panics (IndexOutOfRange 32 32).
Proof. intros. by eapply TxKeysListFromProto_loop_panics. Qed.

Lemma TxKeysListFromProto_panics_witness :
  TxKeysListFromProto
    [Some (tmproto.mkTxKey [x01]); Some (tmproto.mkTxKey (replicate 40 x02)); None]
  = Panics (IndexOutOfRange 32 32).
Proof.
  apply (TxKeysListFromProto_panics _ 1 (tmproto.mkTxKey (replicate 40 x02))).
  - reflexivity.
  - unfold Size. cbn. lia.
  - intros j dp Hj Hdp. destruct j as [|j]; [|lia].
    injection Hdp as <-. eexists. vm_compute. reflexivity.
Defined.

(** X9: on two lists in a row, [TxKeysListFromProto] does on the first
    what it does on it alone; when that is a list of keys and a nil error,
    it goes on with the second list and returns the keys of both in order,
    and otherwise (an error or a panic) the second list is not looked at. *)
Theorem TxKeysListFromProto_app (dps1 dps2 : list (option tmproto.TxKey)) :
  TxKeysListFromProto (dps1 ++ dps2)
  = match TxKeysListFromProto dps1 with
    | Returns (keys1, None) =>
        match TxKeysListFromProto dps2 with
        | Returns (keys2, None) => Returns (keys1 ++ keys2, None)
        | other => other
        end
    | other => other
    end.
Proof.
  unfold TxKeysListFromProto. rewrite TxKeysListFromProto_loop_app.
  destruct (TxKeysListFromProto_loop dps1 []) as [[keys1 [e|]]|p]; [done| |done].
  apply TxKeysListFromProto_loop_acc.
Qed.

Lemma TxKeyFromProto_of_key (k : TxKey) :
  TxKeyFromProto (Some (tmproto.mkTxKey (vec_to_list k))) = Returns (k, None).
Proof.
  destruct (TxKeyFromProto_fits (tmproto.mkTxKey (vec_to_list k)))
    as (k' & -> & Hk'); cbn [tmproto.f_TxKey] in *.
  { by rewrite length_vec_to_list. }
  rewrite length_vec_to_list, Nat.sub_diag in Hk'. cbn [replicate] in Hk'.
  rewrite (right_id_L [] (++)) in Hk'.
  by apply vec_to_list_inj2 in Hk' as ->.
Qed.

Lemma keys_to_wire_converts (keys : list TxKey) :
  ∃ tps, keys_to_wire keys = Returns tps ∧ Forall2 converts tps keys.
Proof.
  induction keys as [|k keys (tps & IH & Hconv)]; [by exists []|].
  exists (Some (tmproto.mkTxKey (vec_to_list k)) :: tps). cbn.
  rewrite ToProto_bytes, IH. cbn. split; [done|]. constructor; [|done].
  apply TxKeyFromProto_of_key.
Qed.

(** X10: a list of keys put in wire form key by key and given to
    [TxKeysListFromProto] comes back as the same list, with a nil error. *)
Theorem keys_list_roundtrip (keys : list TxKey) :
  (tps ← keys_to_wire keys; TxKeysListFromProto tps) = Returns (keys, None).
Proof.
  destruct (keys_to_wire_converts keys) as (tps & -> & Hconv). cbn.
  unfold TxKeysListFromProto. by rewrite (TxKeysListFromProto_loop_all tps keys).
Qed.

(** ** When [Error] panics *)

Lemma Error_cases (e : err) :
  if nil_Reason e then Error e = Panics NilDereference
  else ∃ msg, Error e = Returns msg.
Proof.
  induction e as [s | msg cause _ | e He | | r IH] using err_nested_ind.
  - by exists s.
  - by exists msg.
  - destruct e; try discriminate He; cbn; by eexists.
  - done.
  - exact IH.
Qed.

(** X11: the [Error] method of every error value returns a message, with
    one exception: an [ErrPreCheck] whose [Reason], or the [Reason] of the
    [ErrPreCheck] that its [Reason] is, and so on, is nil; on that one it
    panics with a nil dereference. *)
Theorem Error_panics_iff (e : err) :
  (nil_Reason e = true ↔ Error e = Panics NilDereference) ∧
  (nil_Reason e = false ↔ ∃ msg, Error e = Returns msg) ∧
  (∀ p, Error e = Panics p → p = NilDereference).
Proof.
  pose proof (Error_cases e) as H. destruct (nil_Reason e).
  - rewrite H. split_and!; [done | | by intros p [= <-]].
    split; [done | by intros [? ?]].
  - destruct H as [msg ->]. split_and!; [done | | done].
    split; [by exists msg | done].
Qed.



(** ** Classification and wrapping *)

(** X13: layers of context wrapped around an error do not change what
    [IsPreCheckError] answers on it, true or false. *)
Theorem IsPreCheckError_wrap_layers (msgs : list string) (e : err) :
  IsPreCheckError (Some (wrap_layers msgs e)) = IsPreCheckError (Some e).
Proof.
  induction msgs as [|msg msgs IH]; [done|].
  cbn [wrap_layers foldr]. rewrite <- IH. unfold IsPreCheckError, errors.As.
  by rewrite (As_from_loop (wrapError _ _)).
Qed.



(** ** Messages of the other struct errors *)

Lemma ErrWrongHeight_format desiredHeight currentAuctionHeight :
  Error (ErrWrongHeight desiredHeight currentAuctionHeight)
  = Returns ("Tx submitted for wrong height, asked for " +:+
             fmt.verb_d desiredHeight +:+
             ", but current auction height is " +:+
             fmt.verb_d currentAuctionHeight +:+ "").
Proof. reflexivity. Qed.

Lemma ErrBundleFull_format bundleId bundleHeight :
  Error (ErrBundleFull bundleId bundleHeight)
  = Returns ("Tx submitted but bundle is full, for bundleId " +:+
             fmt.verb_d bundleId +:+
             " with bundle size " +:+ fmt.verb_d bundleHeight +:+ "").
Proof. reflexivity. Qed.

Lemma ErrTxMalformedForBundle_format bundleId bundleSize bundleHeight bundleOrder :
  Error (ErrTxMalformedForBundle bundleId bundleSize bundleHeight bundleOrder)
  = Returns ("Tx submitted but malformed with respect to bundling, for bundleId "
             +:+ fmt.verb_d bundleId +:+
             ", at height " +:+ fmt.verb_d bundleHeight +:+
             ", with bundleSize " +:+ fmt.verb_d bundleSize +:+
             ", and bundleOrder " +:+ fmt.verb_d bundleOrder +:+ "").
Proof. reflexivity. Qed.

Lemma ErrMempoolPendingIsFull_format NumTxs MaxTxs TxsBytes MaxTxsBytes :
  Error (ErrMempoolPendingIsFull NumTxs MaxTxs TxsBytes MaxTxsBytes)
  = Returns ("mempool pending set is full: number of txs " +:+
             fmt.verb_d NumTxs +:+
             " (max: " +:+ fmt.verb_d MaxTxs +:+
             "), total txs bytes " +:+ fmt.verb_d TxsBytes +:+
             " (max: " +:+ fmt.verb_d MaxTxsBytes +:+ ")").
Proof. reflexivity. Qed.

Lemma append_assoc (a b c : string) : (a +:+ b) +:+ c = a +:+ b +:+ c.
Proof. induction a as [|x a IH]; [done|]. rewrite !append_cons. by f_equal. Qed.

(** [substring pre post]: the message reads [pre], the substring, [post]. *)
Ltac substring pre post :=
  apply Contains_spec; exists pre, post; rewrite ?append_assoc; reflexivity.

(** X15: the message of [ErrWrongHeight] gives [desiredHeight] as the
    height asked for and [currentAuctionHeight] as the current auction
    height, in decimal. *)
Theorem ErrWrongHeight_message (desiredHeight currentAuctionHeight : Z) :
  ∃ msg,
    Error (ErrWrongHeight desiredHeight currentAuctionHeight) = Returns msg ∧
    strings.Contains msg ("asked for " +:+ fmt.verb_d desiredHeight) = true ∧
    strings.Contains msg
      ("current auction height is " +:+ fmt.verb_d currentAuctionHeight) = true.
Proof.
  eexists. split; [apply ErrWrongHeight_format|]. split.
  - substring "Tx submitted for wrong height, "
      (", but current auction height is " +:+
       fmt.verb_d currentAuctionHeight +:+ "").
  - substring ("Tx submitted for wrong height, asked for " +:+
               fmt.verb_d desiredHeight +:+ ", but ") "".
Qed.

(** X16: the message of [ErrBundleFull] gives [bundleId] as the bundle id
    and prints the field [bundleHeight] as the bundle size. *)
Theorem ErrBundleFull_message (bundleId bundleHeight : Z) :
  ∃ msg,
    Error (ErrBundleFull bundleId bundleHeight) = Returns msg ∧
    strings.Contains msg ("for bundleId " +:+ fmt.verb_d bundleId) = true ∧
    strings.Contains msg ("with bundle size " +:+ fmt.verb_d bundleHeight) = true.
Proof.
  eexists. split; [apply ErrBundleFull_format|]. split.
  - substring "Tx submitted but bundle is full, "
      (" with bundle size " +:+ fmt.verb_d bundleHeight +:+ "").
  - substring ("Tx submitted but bundle is full, for bundleId " +:+
               fmt.verb_d bundleId +:+ " ") "".
Qed.

(** X17: the message of [ErrTxMalformedForBundle] pairs every label with
    the field of that name, in the order bundle id, height, bundle size,
    bundle order, though the struct declares the size before the height. *)
Theorem ErrTxMalformedForBundle_message
    (bundleId bundleSize bundleHeight bundleOrder : Z) :
  ∃ msg,
    Error (ErrTxMalformedForBundle bundleId bundleSize bundleHeight bundleOrder)
      = Returns msg ∧
    strings.Contains msg
      ("for bundleId " +:+ fmt.verb_d bundleId +:+
       ", at height " +:+ fmt.verb_d bundleHeight +:+
       ", with bundleSize " +:+ fmt.verb_d bundleSize +:+
       ", and bundleOrder " +:+ fmt.verb_d bundleOrder) = true.
Proof.
  eexists. split; [apply ErrTxMalformedForBundle_format|].
  substring "Tx submitted but malformed with respect to bundling, " "".
Qed.

(** X18: the message of [ErrMempoolPendingIsFull] starts with "mempool
    pending set is full" and gives the number of transactions with its
    maximum and the total of bytes with its maximum, each count next to its
    own limit. *)
Theorem ErrMempoolPendingIsFull_message (NumTxs MaxTxs TxsBytes MaxTxsBytes : Z) :
  ∃ msg,
    Error (ErrMempoolPendingIsFull NumTxs MaxTxs TxsBytes MaxTxsBytes)
      = Returns msg ∧
    strings.HasPrefix msg "mempool pending set is full" = true ∧
    strings.Contains msg
      ("number of txs " +:+ fmt.verb_d NumTxs +:+
       " (max: " +:+ fmt.verb_d MaxTxs +:+ ")") = true ∧
    strings.Contains msg
      ("total txs bytes " +:+ fmt.verb_d TxsBytes +:+
       " (max: " +:+ fmt.verb_d MaxTxsBytes +:+ ")") = true.
Proof.
  eexists. split; [apply ErrMempoolPendingIsFull_format|]. split_and!.
  - reflexivity.
  - substring "mempool pending set is full: "
      (", total txs bytes " +:+ fmt.verb_d TxsBytes +:+
       " (max: " +:+ fmt.verb_d MaxTxsBytes +:+ ")").
  - substring ("mempool pending set is full: number of txs " +:+
               fmt.verb_d NumTxs +:+ " (max: " +:+ fmt.verb_d MaxTxs +:+ "), ")
              "".
Qed.

(** ** Messages and fields *)

Lemma append_nil_r (s : string) : s +:+ "" = s.
Proof. induction s as [|c s IH]; [done|]. rewrite append_cons. by f_equal. Qed.

Lemma numeric_pretty_N_go x : ∀ s,
  numeric s = true → numeric (pretty_N_go x s) = true.
Proof.
  induction (N.lt_wf_0 x) as [x _ IH]; intros s Hs.
  assert (x = 0 ∨ 0 < x)%N as [->|?] by lia.
  - by rewrite pretty_N_go_0.
  - rewrite pretty_N_go_step by done. apply IH.
    { by apply N.div_lt. }
    cbn [numeric]. rewrite Hs, andb_true_r.
    unfold pretty_N_char. by repeat case_match.
Qed.

(** [%d] prints digits and at most a minus sign. *)
Lemma numeric_verb_d z : numeric (fmt.verb_d z) = true.
Proof.
  unfold fmt.verb_d, pretty, pretty_Z.
  destruct z as [|x|x]; [done|..]; unfold pretty, pretty_positive, pretty, pretty_N.
  - case_decide; [done|]. by apply numeric_pretty_N_go.
  - case_decide; [done|].
    change ("-" +:+ ?s) with (String "-" s). cbn [numeric].
    by rewrite numeric_pretty_N_go.
Qed.

Lemma verb_d_inj a b : fmt.verb_d a = fmt.verb_d b → a = b.
Proof. apply (inj pretty). Qed.

(** Two texts that each read a number and then a character that no number
    holds agree only when the numbers and what follows them agree. *)
Lemma numeric_split (a a' : string) c c' r r' :
  numeric a = true → numeric a' = true →
  numeric_char c = false → numeric_char c' = false →
  a +:+ String c r = a' +:+ String c' r' →
  a = a' ∧ String c r = String c' r'.
Proof.
  revert a'. induction a as [|x a IH]; intros [|y a'] Ha Ha' Hc Hc';
    rewrite ?append_cons; change ("" +:+ ?s) with s.
  - done.
  - intros [= -> _]. cbn in Ha'. by rewrite Hc in Ha'.
  - intros [= <- _]. cbn in Ha. by rewrite Hc' in Ha.
  - cbn in Ha, Ha'. apply andb_prop in Ha as [_ Ha], Ha' as [_ Ha'].
    intros [= -> H]. destruct (IH a' Ha Ha' Hc Hc' H) as [-> ?]. done.
Qed.

(** In an equation between two messages, pass the text they share and read
    off that the next field is the same on both sides. *)
Ltac next_field H :=
  repeat (injection H as H);
  first
    [ apply numeric_split in H as [?%verb_d_inj H];
      [ | apply numeric_verb_d | apply numeric_verb_d | reflexivity | reflexivity ]
    | rewrite !append_nil_r in H; apply verb_d_inj in H ].

(** X19: the message of a struct error determines the error: two struct
    errors with the same message have the same type and the same value in
    every field. In particular a full mempool and a full pending set never
    read the same. *)
Theorem Error_message_inj (e1 e2 : err) :
  struct_variant e1 = true → struct_variant e2 = true →
  Error e1 = Error e2 → e1 = e2.
Proof.
  destruct e1, e2; intros H1 H2; try discriminate H1; try discriminate H2;
    intros H; cbn [Error fmt.Sprintf] in H; try discriminate H;
    unfold mret, outcome_ret in H.
  all: repeat next_field H; by subst.
Qed.

Lemma Error_message_inj_witness :
  ErrBundleFull 7 12 = ErrBundleFull 7 12.
Proof.
  apply (Error_message_inj (ErrBundleFull 7 12) (ErrBundleFull 7 12));
    reflexivity.
Defined.
